(** * Compromise-spread analysis: a model of [graphistryChallenge.py]

    The development embeds the class [SecurityAnalyzer] of
    [src/graphistryChallenge.py]: the constructor, which indexes two tables
    of log rows into three dictionaries, and [analyze_compromise], the
    breadth-first traversal that marks users and computers and appends lines
    to the event log.  The object's attributes are the fields of a record
    that every operation threads through; the dictionaries are [gmap]s, the
    sets [gset]s, the deque and the event log are lists. *)

From stdpp Require Import gmap strings list sets.

Set Warnings "-clear-no-such-hyp".

Local Open Scope string_scope.
Local Open Scope list_scope.
Local Open Scope nat_scope.
Local Open Scope stdpp_scope.

(** ** Values, rows and exceptions *)

(** A cell of a data frame row as the analyzer sees it: a string, or Python's
    [None] where the table has no value in that cell.  Both are hashable, so
    both can be dictionary keys and set members. *)
Inductive pyval : Type :=
  | Str (s : string)
  | PyNone.

Definition pyval_to_option (v : pyval) : option string :=
  match v with
  | Str s => Some s
  | PyNone => None
  end.

Definition pyval_of_option (o : option string) : pyval :=
  match o with
  | Some s => Str s
  | None => PyNone
  end.

#[global] Instance pyval_eq_dec : EqDecision pyval.
Proof. solve_decision. Defined.

#[global] Instance pyval_countable : Countable pyval.
Proof.
  apply (inj_countable' pyval_to_option pyval_of_option).
  by intros [].
Defined.

(** What an f-string prints for a value: [f"{v}"]. *)
Definition fmt (v : pyval) : string :=
  match v with
  | Str s => s
  | PyNone => "None"
  end.

(** A row yielded by [iterrows()]: a series of labelled cells. *)
Definition row : Type := list (string * pyval).

Inductive exn : Type :=
  | KeyError (label : string).

Inductive result (A : Type) : Type :=
  | Ok (a : A)
  | Raise (e : exn).

Arguments Ok {A} a.
Arguments Raise {A} e.

#[global] Instance result_ret : MRet result := λ A a, Ok a.

#[global] Instance result_bind : MBind result := λ A B f m,
  match m with
  | Ok a => f a
  | Raise e => Raise e
  end.

(** [row[label]] on a row whose labels are distinct: the cell carrying the
    label, [KeyError] when the row has no such label.  On a row that carries
    a label twice the lookup of that label is not a single cell; such rows
    are outside this function, and a statement about which rows the
    constructor accepts assumes [distinct_labels] of them. *)
Fixpoint getitem (r : row) (label : string) : result pyval :=
  match r with
  | [] => Raise (KeyError label)
  | (l, v) :: r' => if decide (l = label) then Ok v else getitem r' label
  end.

(** ** The analyzer object *)

Record SecurityAnalyzer : Type := mkAnalyzer {
  access_logs : list row;
  activity_logs : list row;
  visited_users : gset pyval;
  visited_computers : gset pyval;
  event_log : list string;
  affected_users : gset pyval;
  affected_computers : gset pyval;
  user_to_computers : gmap pyval (list pyval);
  computer_activities : gmap pyval (list (pyval * pyval));
  computer_to_users : gmap pyval (list pyval)
}.

(** The five attribute updates the traversal performs. *)
Definition visited_users_add (x : pyval) (a : SecurityAnalyzer) : SecurityAnalyzer :=
  mkAnalyzer (access_logs a) (activity_logs a)
    (visited_users a ∪ {[x]}) (visited_computers a) (event_log a)
    (affected_users a) (affected_computers a)
    (user_to_computers a) (computer_activities a) (computer_to_users a).

Definition visited_computers_add (x : pyval) (a : SecurityAnalyzer) : SecurityAnalyzer :=
  mkAnalyzer (access_logs a) (activity_logs a)
    (visited_users a) (visited_computers a ∪ {[x]}) (event_log a)
    (affected_users a) (affected_computers a)
    (user_to_computers a) (computer_activities a) (computer_to_users a).

Definition event_log_append (line : string) (a : SecurityAnalyzer) : SecurityAnalyzer :=
  mkAnalyzer (access_logs a) (activity_logs a)
    (visited_users a) (visited_computers a) (event_log a ++ [line])
    (affected_users a) (affected_computers a)
    (user_to_computers a) (computer_activities a) (computer_to_users a).

Definition affected_users_add (x : pyval) (a : SecurityAnalyzer) : SecurityAnalyzer :=
  mkAnalyzer (access_logs a) (activity_logs a)
    (visited_users a) (visited_computers a) (event_log a)
    (affected_users a ∪ {[x]}) (affected_computers a)
    (user_to_computers a) (computer_activities a) (computer_to_users a).

Definition affected_computers_add (x : pyval) (a : SecurityAnalyzer) : SecurityAnalyzer :=
  mkAnalyzer (access_logs a) (activity_logs a)
    (visited_users a) (visited_computers a) (event_log a)
    (affected_users a) (affected_computers a ∪ {[x]})
    (user_to_computers a) (computer_activities a) (computer_to_users a).

(** ** [__init__]: building the three dictionaries *)

(** [d[k].append(v)] on a [defaultdict(list)]: a missing key starts from the
    empty list. *)
Definition dict_append {V : Type} (k : pyval) (v : V)
    (d : gmap pyval (list V)) : gmap pyval (list V) :=
  <[k := default [] (d !! k) ++ [v]]> d.

(** [d.get(k, [])]: a lookup that never inserts. *)
Definition dict_get {V : Type} (d : gmap pyval (list V)) (k : pyval) : list V :=
  default [] (d !! k).

(** The loop over [activity_logs.iterrows()]. *)
Fixpoint index_activity (rows : list row) (utc : gmap pyval (list pyval))
    : result (gmap pyval (list pyval)) :=
  match rows with
  | [] => Ok utc
  | r :: rows' =>
      u ← getitem r "user_id";
      c ← getitem r "computer_id";
      index_activity rows' (dict_append u c utc)
  end.

(** The loop over [access_logs.iterrows()]; the cells are read in the order
    in which the two statements of the loop body evaluate them. *)
Fixpoint index_access (rows : list row)
    (ca : gmap pyval (list (pyval * pyval))) (ctu : gmap pyval (list pyval))
    : result (gmap pyval (list (pyval * pyval)) * gmap pyval (list pyval)) :=
  match rows with
  | [] => Ok (ca, ctu)
  | r :: rows' =>
      c ← getitem r "computer_id";
      u ← getitem r "affected_user_id";
      t ← getitem r "activity_type";
      c' ← getitem r "computer_id";
      u' ← getitem r "affected_user_id";
      index_access rows' (dict_append c (u, t) ca) (dict_append c' u' ctu)
  end.

(** [SecurityAnalyzer(access_logs_df, activity_logs_df)]: an exception leaves
    the caller without an object. *)
Definition init (access_logs_df activity_logs_df : list row) : result SecurityAnalyzer :=
  utc ← index_activity activity_logs_df ∅;
  idx ← index_access access_logs_df ∅ ∅;
  Ok (mkAnalyzer access_logs_df activity_logs_df ∅ ∅ [] ∅ ∅ utc idx.1 idx.2).

(** ** [analyze_compromise] *)

Definition line_started (u : pyval) : string :=
  "Analysis started with suspicious user " +:+ fmt u.
Definition line_processing (u : pyval) : string :=
  "Processing user: " +:+ fmt u.
Definition line_accessed (u c : pyval) : string :=
  "User " +:+ fmt u +:+ " accessed computer " +:+ fmt c.
Definition line_activities (c : pyval) : string :=
  "Activities on computer " +:+ fmt c +:+ ":".
Definition line_activity (t u : pyval) : string :=
  "  - " +:+ fmt t +:+ " by user " +:+ fmt u.
Definition line_affected (c u : pyval) : string :=
  "Computer " +:+ fmt c +:+ " affected user " +:+ fmt u.

(** The traversal state between two statements: the object and the local
    deque. *)
Definition config : Type := SecurityAnalyzer * list pyval.

(** Body of [for user in users_on_computer] (lines 52-57). *)
Definition visit_user (computer : pyval) (st : config) (user : pyval) : config :=
  if decide (user ∈ visited_users st.1) then st
  else
    let a1 := affected_users_add user st.1 in
    let a2 := visited_users_add user a1 in
    let queue := st.2 ++ [user] in
    (event_log_append (line_affected computer user) a2, queue).

(** Body of the loop over [computer_activities.get(computer, [])]
    (lines 48-49). *)
Definition log_activity (a : SecurityAnalyzer) (entry : pyval * pyval) : SecurityAnalyzer :=
  event_log_append (line_activity entry.2 entry.1) a.

(** Body of [for computer in user_computers] (lines 41-57). *)
Definition visit_computer (current_user : pyval) (st : config) (computer : pyval) : config :=
  if decide (computer ∈ visited_computers st.1) then st
  else
    let a1 := visited_computers_add computer st.1 in
    let a2 := affected_computers_add computer a1 in
    let a3 := event_log_append (line_accessed current_user computer) a2 in
    let a4 := event_log_append (line_activities computer) a3 in
    let a5 := foldl log_activity a4 (dict_get (computer_activities a4) computer) in
    let users_on_computer := dict_get (computer_to_users a5) computer in
    foldl (visit_user computer) (a5, st.2) users_on_computer.

(** One iteration of [while queue] once [current_user] has been popped from
    the left (lines 36-57). *)
Definition process_user (a : SecurityAnalyzer) (current_user : pyval)
    (queue : list pyval) : config :=
  let a1 := event_log_append (line_processing current_user) a in
  let user_computers := dict_get (user_to_computers a1) current_user in
  foldl (visit_computer current_user) (a1, queue) user_computers.

(** [while queue: ...], with a bound on the number of iterations; [None]
    when the bound is reached with users still queued. *)
Fixpoint while_queue (fuel : nat) (a : SecurityAnalyzer) (queue : list pyval)
    : option SecurityAnalyzer :=
  match queue with
  | [] => Some a
  | current_user :: queue' =>
      match fuel with
      | O => None
      | S fuel' =>
          let st := process_user a current_user queue' in
          while_queue fuel' st.1 st.2
      end
  end.

(** Lines 29-33: the state in which the loop is entered. *)
Definition analyze_start (a : SecurityAnalyzer) (initial_user : pyval) : SecurityAnalyzer :=
  let a1 := visited_users_add initial_user a in
  let a2 := affected_users_add initial_user a1 in
  event_log_append (line_started initial_user) a2.

Definition analyze_compromise_fuel (fuel : nat) (a : SecurityAnalyzer)
    (initial_user : pyval) : option SecurityAnalyzer :=
  while_queue fuel (analyze_start a initial_user) [initial_user].

(** Every user some computer lists in [computer_to_users]: the only values
    that can ever be appended to the deque. *)
Definition listed_users (a : SecurityAnalyzer) : gset pyval :=
  ⋃ (list_to_set <$> (map_to_list (computer_to_users a)).*2).

(** The users that can still be appended to the deque, plus those in it:
    each iteration of the loop lowers this number by one. *)
Definition loop_measure (a : SecurityAnalyzer) (queue : list pyval) : nat :=
  length queue + size (listed_users a ∖ visited_users a).

(** [analyze_compromise(initial_user)], run with as many iterations as the
    measure allows; [analyze_compromise_runs] below shows the loop exits
    normally within them. *)
Definition analyze_compromise (a : SecurityAnalyzer) (initial_user : pyval) : SecurityAnalyzer :=
  let a0 := analyze_start a initial_user in
  default a0 (while_queue (loop_measure a0 [initial_user]) a0 [initial_user]).

(** ** The scenario of the specification *)

Definition activity_row (u c : string) : row :=
  [("user_id", Str u); ("computer_id", Str c)].
Definition access_row (c u t : string) : row :=
  [("computer_id", Str c); ("affected_user_id", Str u); ("activity_type", Str t)].

Definition scenario_activity : list row := [activity_row "U1" "C1"].
Definition scenario_access : list row :=
  [access_row "C1" "U2" "login"; access_row "C1" "U3" "copy"].

(** The object the constructor returns on the scenario. *)
Definition scenario_analyzer : SecurityAnalyzer :=
  mkAnalyzer scenario_access scenario_activity ∅ ∅ [] ∅ ∅
    {[Str "U1" := [Str "C1"]]}
    {[Str "C1" := [(Str "U2", Str "login"); (Str "U3", Str "copy")]]}
    {[Str "C1" := [Str "U2"; Str "U3"]]}.

(** The scenario with a second activity record that leads back to [C1]. *)
Definition revisit_activity : list row :=
  [activity_row "U1" "C1"; activity_row "U2" "C1"].

Definition revisit_analyzer : SecurityAnalyzer :=
  mkAnalyzer scenario_access revisit_activity ∅ ∅ [] ∅ ∅
    {[Str "U1" := [Str "C1"]; Str "U2" := [Str "C1"]]}
    {[Str "C1" := [(Str "U2", Str "login"); (Str "U3", Str "copy")]]}
    {[Str "C1" := [Str "U2"; Str "U3"]]}.

(** An activity table whose only row has no value in its [user_id] cell. *)
Definition none_activity : list row :=
  [[("user_id", PyNone); ("computer_id", Str "C1")]].

Definition scenario_log : list string :=
  ["Analysis started with suspicious user U1";
   "Processing user: U1";
   "User U1 accessed computer C1";
   "Activities on computer C1:";
   "  - login by user U2";
   "  - copy by user U3";
   "Computer C1 affected user U2";
   "Computer C1 affected user U3";
   "Processing user: U2";
   "Processing user: U3"].

(** ** What a run may change: the order [grows] *)

(** The inputs and the three dictionaries of [a'] are those of [a]. *)
Definition same_index (a a' : SecurityAnalyzer) : Prop :=
  access_logs a' = access_logs a ∧
  activity_logs a' = activity_logs a ∧
  user_to_computers a' = user_to_computers a ∧
  computer_activities a' = computer_activities a ∧
  computer_to_users a' = computer_to_users a.

(** [a'] is [a] with more marks and a longer log, nothing else changed. *)
Record grows (a a' : SecurityAnalyzer) : Prop := mkGrows {
  grows_visited_users : visited_users a ⊆ visited_users a';
  grows_visited_computers : visited_computers a ⊆ visited_computers a';
  grows_affected_users : affected_users a ⊆ affected_users a';
  grows_affected_computers : affected_computers a ⊆ affected_computers a';
  grows_event_log : event_log a `prefix_of` event_log a';
  grows_index : same_index a a'
}.

(** ** Reachability in the user/computer graph *)

(** The users reachable from [seed] by alternating a user-to-computer edge
    of [user_to_computers] with a computer-to-user edge of
    [computer_to_users]. *)
Inductive reach_user (a : SecurityAnalyzer) (seed : pyval) : pyval → Prop :=
  | reach_seed : reach_user a seed seed
  | reach_hop u c v :
      reach_user a seed u →
      c ∈ dict_get (user_to_computers a) u →
      v ∈ dict_get (computer_to_users a) c →
      reach_user a seed v.

(** The computers reachable the same way: those a reachable user has an
    edge to. *)
Definition reach_computer (a : SecurityAnalyzer) (seed : pyval) (c : pyval) : Prop :=
  ∃ u, reach_user a seed u ∧ c ∈ dict_get (user_to_computers a) u.

(** No mark has been set yet. *)
Definition unmarked (a : SecurityAnalyzer) : Prop :=
  visited_users a = ∅ ∧ visited_computers a = ∅ ∧
  affected_users a = ∅ ∧ affected_computers a = ∅.

(** The invariant of the traversal started on [a0] from [seed].
    [pending] are the users marked but not yet expanded (the one being
    processed and the deque); [opened] the computer, if any, whose users
    are being enumerated. *)
Record bfs_inv (a0 : SecurityAnalyzer) (seed : pyval)
    (pending opened : list pyval) (a : SecurityAnalyzer) : Prop := mkBfsInv {
  inv_index : same_index a0 a;
  inv_affected_users : affected_users a = visited_users a;
  inv_affected_computers : affected_computers a = visited_computers a;
  inv_seed : seed ∈ visited_users a;
  inv_users_sound : ∀ u, u ∈ visited_users a → reach_user a0 seed u;
  inv_computers_sound : ∀ c, c ∈ visited_computers a → reach_computer a0 seed c;
  inv_pending : ∀ u, u ∈ pending → u ∈ visited_users a;
  inv_users_closed : ∀ u c,
    u ∈ visited_users a → u ∉ pending →
    c ∈ dict_get (user_to_computers a0) u → c ∈ visited_computers a;
  inv_computers_closed : ∀ c v,
    c ∈ visited_computers a → c ∉ opened →
    v ∈ dict_get (computer_to_users a0) c → v ∈ visited_users a
}.


(** ** Rows and the index they produce *)

(** The labels the two loops of [__init__] read. *)
Definition activity_labels : list string := ["user_id"; "computer_id"].
Definition access_labels : list string :=
  ["computer_id"; "affected_user_id"; "activity_type"].

Definition has_label (r : row) (label : string) : bool :=
  match getitem r label with
  | Ok _ => true
  | Raise _ => false
  end.

(** Every label of [labels] can be read from the row. *)
Definition well_labelled (labels : list string) (r : row) : bool :=
  forallb (has_label r) labels.

(** The value read from a row that carries the label. *)
Definition cell (r : row) (label : string) : pyval :=
  match getitem r label with
  | Ok v => v
  | Raise _ => PyNone
  end.

(** A required field is missing from a row when the row has no cell for it
    or the cell holds no value. *)
Definition field_missing (r : row) (label : string) : Prop :=
  has_label r label = false ∨ getitem r label = Ok PyNone.

Definition malformed (labels : list string) (r : row) : Prop :=
  ∃ label, label ∈ labels ∧ field_missing r label.

(** No column label occurs twice in the row. *)
Definition distinct_labels (r : row) : Prop := NoDup r.*1.

(** The three sequences a complete index holds for a key, read off the
    rows in their order. *)
Definition computers_of (activity : list row) (u : pyval) : list pyval :=
  (λ r, cell r "computer_id") <$> filter (λ r, cell r "user_id" = u) activity.

Definition users_of (access : list row) (c : pyval) : list pyval :=
  (λ r, cell r "affected_user_id") <$> filter (λ r, cell r "computer_id" = c) access.

Definition activities_of (access : list row) (c : pyval) : list (pyval * pyval) :=
  (λ r, (cell r "affected_user_id", cell r "activity_type"))
    <$> filter (λ r, cell r "computer_id" = c) access.

(** ** The run, statement by statement *)

(** The successive values of the object while a [for] loop runs: [steps]
    lists those one iteration goes through. *)
Fixpoint loop_steps {S B : Type} (body : S → B → S)
    (steps : S → B → list SecurityAnalyzer) (s : S) (l : list B)
    : list SecurityAnalyzer :=
  match l with
  | [] => []
  | x :: l' => steps s x ++ loop_steps body steps (body s x) l'
  end.

(** The object after each of the statements of lines 54-57. *)
Definition visit_user_steps (computer : pyval) (st : config) (user : pyval)
    : list SecurityAnalyzer :=
  if decide (user ∈ visited_users st.1) then []
  else
    let a1 := affected_users_add user st.1 in
    let a2 := visited_users_add user a1 in
    [a1; a2; event_log_append (line_affected computer user) a2].

(** The object after each of the statements of lines 43-57. *)
Definition visit_computer_steps (current_user : pyval) (st : config) (computer : pyval)
    : list SecurityAnalyzer :=
  if decide (computer ∈ visited_computers st.1) then []
  else
    let a1 := visited_computers_add computer st.1 in
    let a2 := affected_computers_add computer a1 in
    let a3 := event_log_append (line_accessed current_user computer) a2 in
    let a4 := event_log_append (line_activities computer) a3 in
    let activities := dict_get (computer_activities a4) computer in
    let a5 := foldl log_activity a4 activities in
    [a1; a2; a3; a4]
    ++ loop_steps log_activity (λ a e, [log_activity a e]) a4 activities
    ++ loop_steps (visit_user computer) (visit_user_steps computer) (a5, st.2)
         (dict_get (computer_to_users a5) computer).

Definition process_user_steps (a : SecurityAnalyzer) (current_user : pyval)
    (queue : list pyval) : list SecurityAnalyzer :=
  let a1 := event_log_append (line_processing current_user) a in
  a1 :: loop_steps (visit_computer current_user) (visit_computer_steps current_user)
          (a1, queue) (dict_get (user_to_computers a1) current_user).

Fixpoint while_queue_steps (fuel : nat) (a : SecurityAnalyzer) (queue : list pyval)
    : list SecurityAnalyzer :=
  match queue with
  | [] => []
  | current_user :: queue' =>
      match fuel with
      | O => []
      | S fuel' =>
          let st := process_user a current_user queue' in
          process_user_steps a current_user queue'
          ++ while_queue_steps fuel' st.1 st.2
      end
  end.

(** Every value the object takes during [analyze_compromise(initial_user)],
    from the one it is called on to the one it returns with. *)
Definition analyze_compromise_steps (a : SecurityAnalyzer) (initial_user : pyval)
    : list SecurityAnalyzer :=
  let a1 := visited_users_add initial_user a in
  let a2 := affected_users_add initial_user a1 in
  let a3 := event_log_append (line_started initial_user) a2 in
  a :: a1 :: a2 :: a3 :: while_queue_steps (loop_measure a3 [initial_user]) a3 [initial_user].

(** [l] continues [s] with ever larger states. *)
Fixpoint chain (s : SecurityAnalyzer) (l : list SecurityAnalyzer) : Prop :=
  match l with
  | [] => True
  | x :: l' => grows s x ∧ chain x l'
  end.

(** [l] is a growing chain from [s] that ends in [s']. *)
Definition ends_at (s : SecurityAnalyzer) (l : list SecurityAnalyzer)
    (s' : SecurityAnalyzer) : Prop :=
  chain s l ∧ default s (last l) = s'.

(** ** Reading the event log *)

(** The six kinds of line the traversal writes, told apart by how a line
    begins. *)
Inductive line_kind : Type :=
  | KStarted | KProcessing | KAccessed | KHeader | KActivity | KAffected | KOther.

#[global] Instance line_kind_eq_dec : EqDecision line_kind.
Proof. solve_decision. Defined.

(** [line.startswith(p)]. *)
Fixpoint starts_with (p line : string) : bool :=
  match p with
  | EmptyString => true
  | String x p' =>
      match line with
      | EmptyString => false
      | String y line' => if Ascii.eqb x y then starts_with p' line' else false
      end
  end.

Definition classify (line : string) : line_kind :=
  if starts_with "Analysis started with suspicious user " line then KStarted
  else if starts_with "Processing user: " line then KProcessing
  else if starts_with "User " line then KAccessed
  else if starts_with "Activities on computer " line then KHeader
  else if starts_with "  - " line then KActivity
  else if starts_with "Computer " line then KAffected
  else KOther.

(** How many lines of a kind a log holds. *)
Definition count_kind (k : line_kind) (log : list string) : nat :=
  length (filter (λ line, classify line = k) log).

(** One accessed line and one header per marked computer. *)
Definition block_counts (a : SecurityAnalyzer) : Prop :=
  count_kind KAccessed (event_log a) = size (visited_computers a) ∧
  count_kind KHeader (event_log a) = size (visited_computers a).

(** One affected-user line per marked user other than the seed. *)
Definition affected_counts (a : SecurityAnalyzer) : Prop :=
  count_kind KAffected (event_log a) + 1 = size (visited_users a).

(** Every activity line of the log prints an activity recorded for a marked
    computer, and every such activity has its line. *)
Definition activity_lines_known (a : SecurityAnalyzer) : Prop :=
  (∀ line, line ∈ event_log a → classify line = KActivity →
     ∃ c u t, c ∈ visited_computers a ∧
       (u, t) ∈ dict_get (computer_activities a) c ∧ line = line_activity t u) ∧
  (∀ c u t, c ∈ visited_computers a →
     (u, t) ∈ dict_get (computer_activities a) c →
     line_activity t u ∈ event_log a).

(** One processing line per marked user that has left the deque; [k] counts
    the users put in the deque although they were marked already (the seed
    of a second run can be one). *)
Definition processing_counts (k : nat) (a : SecurityAnalyzer) (queue : list pyval) : Prop :=
  count_kind KProcessing (event_log a) + length queue = size (visited_users a) + k.
(** ** Loops as folds: two induction principles *)

Section fold_invariants.
Context {S B : Type} (f : S → B → S).

(** An invariant kept by the body for the elements of the list is kept by
    the whole [for] loop. *)
Lemma foldl_invariant (I : S → Prop) (l : list B) (s : S) :
  I s →
  (∀ s' x, x ∈ l → I s' → I (f s' x)) →
  I (foldl f s l).
Proof.
  revert s. induction l as [|x l IH]; intros s Hs Hstep; [done|].
  cbn. apply IH.
  - apply Hstep; [left | done].
  - intros s' y Hy. apply Hstep. by right.
Qed.

(** A property [M x] that the body establishes for the element it handles
    and that later iterations keep holds for every element once the loop
    is over. *)
Lemma foldl_establishes (I : S → Prop) (M : B → S → Prop) (l : list B) (s : S) :
  I s →
  (∀ s' x, x ∈ l → I s' → I (f s' x) ∧ M x (f s' x)) →
  (∀ s' x y, y ∈ l → I s' → M x s' → M x (f s' y)) →
  I (foldl f s l) ∧ ∀ x, x ∈ l → M x (foldl f s l).
Proof.
  revert s. induction l as [|x l IH]; intros s Hs Hstep Hkeep.
  { split; [done|]. intros x Hx. by apply elem_of_nil in Hx. }
  cbn.
  destruct (Hstep s x) as [Hi Hm]; [left | done |].
  destruct (IH (f s x)) as [Hi' Hm']; [done | | |].
  - intros s' y Hy. apply Hstep. by right.
  - intros s' y z Hz. apply Hkeep. by right.
  - split; [done|]. intros y Hy. apply elem_of_cons in Hy as [->|Hy]; [|by apply Hm'].
    clear Hm' Hi'.
    assert (∀ s', I s' → M x s' → M x (foldl f s' l)) as Hall.
    { clear -Hstep Hkeep. induction l as [|z l IHl]; intros s' ? ?; [done|].
      cbn. apply IHl.
      - intros s'' y Hy. apply Hstep.
        apply elem_of_cons in Hy as [->|Hy]; [left | right; by right].
      - intros s'' y w Hw. apply Hkeep.
        apply elem_of_cons in Hw as [->|Hw]; [left | right; by right].
      - apply Hstep; [right; left | done].
      - apply Hkeep; [right; left | done | done]. }
    by apply Hall.
Qed.
End fold_invariants.

Lemma same_index_refl a : same_index a a.
Proof. by repeat split. Qed.

Lemma same_index_trans a b c : same_index a b → same_index b c → same_index a c.
Proof.
  intros (?&?&?&?&?) (?&?&?&?&?). repeat split; congruence.
Qed.

#[global] Instance grows_refl : Reflexive grows.
Proof. intros a. split; first [done | apply same_index_refl]. Qed.

#[global] Instance grows_trans : Transitive grows.
Proof.
  intros a b c [] [].
  split; first [by eapply same_index_trans | etrans; eassumption].
Qed.

Ltac unfold_updates :=
  unfold visited_users_add, visited_computers_add, event_log_append,
    affected_users_add, affected_computers_add in *; cbn in *.

Lemma grows_visited_users_add x a : grows a (visited_users_add x a).
Proof. split; unfold_updates; first [done | set_solver]. Qed.

Lemma grows_visited_computers_add x a : grows a (visited_computers_add x a).
Proof. split; unfold_updates; first [done | set_solver]. Qed.

Lemma grows_affected_users_add x a : grows a (affected_users_add x a).
Proof. split; unfold_updates; first [done | set_solver]. Qed.

Lemma grows_affected_computers_add x a : grows a (affected_computers_add x a).
Proof. split; unfold_updates; first [done | set_solver]. Qed.

Lemma grows_event_log_append line a : grows a (event_log_append line a).
Proof.
  split; unfold_updates; first [done | by apply prefix_app_r].
Qed.

Create HintDb grows.
#[global] Hint Resolve grows_visited_users_add grows_visited_computers_add
  grows_affected_users_add grows_affected_computers_add
  grows_event_log_append : grows.

Lemma grows_visit_user c st u : grows st.1 (visit_user c st u).1.
Proof.
  unfold visit_user. case_decide; [done|]. cbn.
  etrans; [|apply grows_event_log_append].
  etrans; [|apply grows_visited_users_add].
  apply grows_affected_users_add.
Qed.

Lemma grows_foldl_config {B : Type} (f : config → B → config) (l : list B) (st : config) :
  (∀ st' x, grows st'.1 (f st' x).1) → grows st.1 (foldl f st l).1.
Proof.
  intros Hf.
  apply (foldl_invariant f (λ st', grows st.1 st'.1)); [done|].
  intros st' x _ ?. etrans; [eassumption | apply Hf].
Qed.

Lemma grows_log_activity a e : grows a (log_activity a e).
Proof. apply grows_event_log_append. Qed.

Lemma grows_foldl_log_activity a l : grows a (foldl log_activity a l).
Proof.
  apply (foldl_invariant log_activity (grows a)); [done|].
  intros a' e _ ?. etrans; [eassumption | apply grows_log_activity].
Qed.

Lemma grows_visit_computer u st c : grows st.1 (visit_computer u st c).1.
Proof.
  unfold visit_computer. case_decide; [done|].
  etrans; [|apply grows_foldl_config; intros; apply grows_visit_user]. cbn.
  etrans; [|apply grows_foldl_log_activity].
  etrans; [|apply grows_event_log_append].
  etrans; [|apply grows_event_log_append].
  etrans; [|apply grows_affected_computers_add].
  apply grows_visited_computers_add.
Qed.

Lemma grows_process_user a u q : grows a (process_user a u q).1.
Proof.
  unfold process_user.
  etrans; [|apply grows_foldl_config; intros; apply grows_visit_computer]. cbn.
  apply grows_event_log_append.
Qed.

Lemma grows_while_queue fuel a q r : while_queue fuel a q = Some r → grows a r.
Proof.
  revert a q. induction fuel as [|fuel IH]; intros a [|u q] Hr; simplify_eq/=; try done.
  etrans; [apply (grows_process_user a u q) | by eapply IH].
Qed.

Lemma grows_analyze_start a u : grows a (analyze_start a u).
Proof.
  unfold analyze_start.
  etrans; [|apply grows_event_log_append].
  etrans; [|apply grows_affected_users_add].
  apply grows_visited_users_add.
Qed.

(** The activity lines of a computer are appended as one block and touch
    nothing but the log. *)
Lemma foldl_log_activity a l :
  foldl log_activity a l =
  mkAnalyzer (access_logs a) (activity_logs a)
    (visited_users a) (visited_computers a)
    (event_log a ++ ((λ e, line_activity e.2 e.1) <$> l))
    (affected_users a) (affected_computers a)
    (user_to_computers a) (computer_activities a) (computer_to_users a).
Proof.
  revert a. induction l as [|e l IH]; intros a; cbn.
  - rewrite app_nil_r. by destruct a.
  - rewrite IH. unfold log_activity. unfold_updates. by rewrite <-app_assoc.
Qed.

(** ** Termination of the [while] loop *)

Lemma elem_of_listed_users a u :
  u ∈ listed_users a ↔ ∃ c, u ∈ dict_get (computer_to_users a) c.
Proof.
  unfold listed_users, dict_get. rewrite elem_of_union_list. split.
  - intros (X & HX & Hu).
    apply list_elem_of_fmap in HX as (l & -> & Hl).
    apply list_elem_of_fmap in Hl as ([c l'] & -> & Hl).
    apply elem_of_map_to_list in Hl. exists c. rewrite Hl. cbn.
    by apply elem_of_list_to_set in Hu.
  - intros (c & Hu). destruct (computer_to_users a !! c) as [l|] eqn:Hc; cbn in Hu.
    + exists (list_to_set l). split; [|by apply elem_of_list_to_set].
      apply list_elem_of_fmap. exists l. split; [done|].
      apply list_elem_of_fmap. exists (c, l). split; [done|].
      by apply elem_of_map_to_list.
    + by apply elem_of_nil in Hu.
Qed.

Lemma listed_users_same_index a a' : same_index a a' → listed_users a' = listed_users a.
Proof. intros (_&_&_&_&H). unfold listed_users. by rewrite H. Qed.

Lemma size_difference_mark (L V : gset pyval) (u : pyval) :
  u ∈ L → u ∉ V → size (L ∖ V) = S (size (L ∖ (V ∪ {[u]}))).
Proof.
  intros HL HV.
  assert (L ∖ V = {[u]} ∪ L ∖ (V ∪ {[u]})) as ->.
  { apply set_eq. intros x. destruct (decide (x = u)); set_solver. }
  rewrite size_union; [|set_solver]. by rewrite size_singleton.
Qed.

Lemma visit_user_measure c st u :
  u ∈ listed_users st.1 →
  loop_measure (visit_user c st u).1 (visit_user c st u).2 = loop_measure st.1 st.2.
Proof.
  intros Hu. unfold visit_user. case_decide as Hv; [done|].
  unfold loop_measure. cbn.
  change (listed_users (event_log_append _ _)) with (listed_users st.1).
  rewrite (size_difference_mark (listed_users st.1) (visited_users st.1) u) by done.
  rewrite length_app. cbn. lia.
Qed.

Lemma visit_computer_measure u st c :
  loop_measure (visit_computer u st c).1 (visit_computer u st c).2 = loop_measure st.1 st.2.
Proof.
  unfold visit_computer. case_decide as Hv; [done|].
  rewrite foldl_log_activity. cbn.
  set (a5 := mkAnalyzer _ _ _ _ _ _ _ _ _ _).
  assert (loop_measure a5 st.2 = loop_measure st.1 st.2) as <- by done.
  assert (computer_to_users st.1 = computer_to_users a5) as -> by done.
  generalize (eq_refl (dict_get (computer_to_users a5) c)).
  generalize (dict_get (computer_to_users a5) c) at 1 3 4 as l.
  intros l Hl.
  assert (∀ x, x ∈ l → x ∈ listed_users a5) as Hin.
  { intros x Hx. apply elem_of_listed_users. exists c. by rewrite <-Hl. }
  clear Hl.
  apply (foldl_invariant (visit_user c)
    (λ st', same_index a5 st'.1 ∧ loop_measure st'.1 st'.2 = loop_measure a5 st.2)).
  - split; [apply same_index_refl | done].
  - intros st' x Hx [Hsame Hm]. split.
    + eapply same_index_trans; [done|]. apply grows_index, grows_visit_user.
    + rewrite visit_user_measure; [done|].
      rewrite (listed_users_same_index _ _ Hsame). by apply Hin.
Qed.

Lemma process_user_measure a u q :
  loop_measure (process_user a u q).1 (process_user a u q).2 = loop_measure a q.
Proof.
  unfold process_user.
  apply (foldl_invariant (visit_computer u)
    (λ st', loop_measure st'.1 st'.2 = loop_measure a q)); [done|].
  intros st' c _ <-. apply visit_computer_measure.
Qed.

(** Each iteration pops one user and lowers the measure by exactly one, so
    the loop exits within [loop_measure] iterations. *)
Lemma while_queue_terminates fuel a q :
  loop_measure a q ≤ fuel → is_Some (while_queue fuel a q).
Proof.
  revert a q. induction fuel as [|fuel IH]; intros a [|u q] Hm; cbn; try done.
  - unfold loop_measure in Hm. cbn in Hm. lia.
  - apply IH. rewrite process_user_measure.
    unfold loop_measure in *. cbn in Hm. lia.
Qed.

Lemma while_queue_fuel_mono fuel fuel' a q r :
  while_queue fuel a q = Some r → fuel ≤ fuel' → while_queue fuel' a q = Some r.
Proof.
  revert fuel' a q. induction fuel as [|fuel IH]; intros fuel' a [|u q] Hr Hle;
    simplify_eq/=; try by destruct fuel'.
  destruct fuel' as [|fuel']; [lia|]. cbn. apply IH; [done | lia].
Qed.

Lemma while_queue_deterministic fuel fuel' a q r r' :
  while_queue fuel a q = Some r → while_queue fuel' a q = Some r' → r = r'.
Proof.
  intros Hr Hr'.
  apply (while_queue_fuel_mono _ (fuel `max` fuel')) in Hr; [|lia].
  apply (while_queue_fuel_mono _ (fuel `max` fuel')) in Hr'; [|lia].
  congruence.
Qed.

(** [analyze_compromise] is the state in which the loop exits, whatever
    bound the loop was run with. *)
Lemma analyze_compromise_runs a u :
  while_queue (loop_measure (analyze_start a u) [u]) (analyze_start a u) [u]
  = Some (analyze_compromise a u).
Proof.
  unfold analyze_compromise. cbn zeta.
  destruct (while_queue_terminates (loop_measure (analyze_start a u) [u])
              (analyze_start a u) [u]) as [r Hr]; [done|].
  by rewrite Hr.
Qed.

Arguments analyze_compromise : simpl never.

Lemma analyze_compromise_fuel_eq fuel a u r :
  analyze_compromise_fuel fuel a u = Some r → r = analyze_compromise a u.
Proof.
  intros Hr. eapply while_queue_deterministic; [exact Hr | apply analyze_compromise_runs].
Qed.

(** Induction on the iterations of the loop: a property of the object and
    the deque kept by every iteration holds when the loop exits. *)
Lemma while_queue_invariant (P : SecurityAnalyzer → list pyval → Prop) fuel a q r :
  (∀ a' u q', P a' (u :: q') → P (process_user a' u q').1 (process_user a' u q').2) →
  P a q → while_queue fuel a q = Some r → P r [].
Proof.
  intros Hstep. revert a q.
  induction fuel as [|fuel IH]; intros a [|u q] HP Hr; simplify_eq/=; try done.
  eapply IH; [|done]. by apply Hstep.
Qed.

Lemma analyze_compromise_invariant (P : SecurityAnalyzer → list pyval → Prop) a u :
  (∀ a' u' q', P a' (u' :: q') → P (process_user a' u' q').1 (process_user a' u' q').2) →
  P (analyze_start a u) [u] → P (analyze_compromise a u) [].
Proof.
  intros Hstep Hstart.
  eapply while_queue_invariant; [done | done | apply analyze_compromise_runs].
Qed.

Lemma grows_analyze_compromise a u : grows a (analyze_compromise a u).
Proof.
  etrans; [apply (grows_analyze_start a u)|].
  eapply grows_while_queue, analyze_compromise_runs.
Qed.

(** ** The invariant of the traversal *)

Section bfs.
Variables (a0 : SecurityAnalyzer) (seed : pyval).

Lemma bfs_inv_start : unmarked a0 → bfs_inv a0 seed [seed] [] (analyze_start a0 seed).
Proof.
  intros (Hvu & Hvc & Hau & Hac).
  split; unfold analyze_start; cbn; rewrite ?Hvu, ?Hvc, ?Hau, ?Hac.
  - by repeat split.
  - done.
  - done.
  - set_solver.
  - intros u Hu. assert (u = seed) as -> by set_solver. constructor.
  - set_solver.
  - set_solver.
  - set_solver.
  - set_solver.
Qed.

Lemma bfs_inv_visit_user cur opened c st v :
  bfs_inv a0 seed (cur ++ st.2) opened st.1 →
  c ∈ visited_computers st.1 →
  v ∈ dict_get (computer_to_users a0) c →
  bfs_inv a0 seed (cur ++ (visit_user c st v).2) opened (visit_user c st v).1
  ∧ v ∈ visited_users (visit_user c st v).1.
Proof.
  intros [Hidx Hau Hac Hseed Hus Hcs Hpend Huc Hcc] Hc Hv.
  unfold visit_user. case_decide as Hvis; [done|].
  cbn. split; [|set_solver]. split; cbn.
  - done.
  - congruence.
  - done.
  - set_solver.
  - intros u [Hu| ->%elem_of_singleton]%elem_of_union; [by auto|].
    destruct (Hcs c Hc) as (w & Hw & Hcw).
    by eapply reach_hop.
  - done.
  - intros u Hu. rewrite app_assoc in Hu.
    apply elem_of_app in Hu as [Hu|Hu]; set_solver.
  - intros u c' Hu Hnp Hc'. rewrite app_assoc in Hnp.
    apply not_elem_of_app in Hnp as [Hnp Hne].
    apply (Huc u); [set_solver | done | done].
  - intros c' v' ???. apply elem_of_union_l. eauto.
Qed.

Lemma bfs_inv_visit_computer cur u st c :
  bfs_inv a0 seed (cur ++ st.2) [] st.1 →
  u ∈ cur →
  c ∈ dict_get (user_to_computers a0) u →
  bfs_inv a0 seed (cur ++ (visit_computer u st c).2) [] (visit_computer u st c).1
  ∧ c ∈ visited_computers (visit_computer u st c).1.
Proof.
  intros Hinv Hu Hc. unfold visit_computer. case_decide as Hvis; [done|].
  rewrite foldl_log_activity. cbn.
  set (a5 := mkAnalyzer _ _ _ _ _ _ _ _ _ _).
  assert (computer_to_users st.1 = computer_to_users a0) as ->.
  { by destruct Hinv as [(_&_&_&_&?)]. }
  assert (bfs_inv a0 seed (cur ++ st.2) [c] a5 ∧ c ∈ visited_computers a5) as Hstart.
  { destruct Hinv as [Hidx Hau Hac Hseed Hus Hcs Hpend Huc Hcc].
    split; [|subst a5; cbn; set_solver]. split; subst a5; cbn.
    - done.
    - done.
    - congruence.
    - done.
    - done.
    - intros c' [?| ->%elem_of_singleton]%elem_of_union; [by auto|].
      exists u. split; [|done]. apply Hus, Hpend. set_solver.
    - done.
    - intros u' c' ???. apply elem_of_union_l. eauto.
    - intros c' v [?| ->%elem_of_singleton]%elem_of_union Hno Hv.
      + apply (Hcc c' v); [done | set_solver | done].
      + set_solver. }
  destruct (foldl_establishes (visit_user c)
    (λ st', bfs_inv a0 seed (cur ++ st'.2) [c] st'.1 ∧ c ∈ visited_computers st'.1)
    (λ v st', v ∈ visited_users st'.1)
    (dict_get (computer_to_users a0) c) (a5, st.2)) as [[Hend Hcv] Hall].
  - done.
  - intros st' v Hv [Hst' Hcv].
    destruct (bfs_inv_visit_user cur [c] c st' v) as [Hnext Hmark]; [done..|].
    split; [split|]; [done | | done].
    by apply (grows_visited_computers _ _ (grows_visit_user c st' v)).
  - intros st' v w _ _ Hv.
    by apply (grows_visited_users _ _ (grows_visit_user c st' w)).
  - split; [|done].
    destruct Hend as [Hidx Hau Hac Hseed Hus Hcs Hpend Huc Hcc]. split; try done.
    intros c' v Hc' _ Hv. destruct (decide (c' = c)) as [->|Hne].
    + by apply Hall.
    + apply (Hcc c'); [done | set_solver | done].
Qed.

Lemma bfs_inv_process_user a u q :
  bfs_inv a0 seed (u :: q) [] a →
  bfs_inv a0 seed (process_user a u q).2 [] (process_user a u q).1.
Proof.
  intros Hinv. unfold process_user.
  assert (user_to_computers (event_log_append (line_processing u) a)
          = user_to_computers a0) as ->.
  { by destruct Hinv as [(_&_&?&_&_)]. }
  destruct (foldl_establishes (visit_computer u)
    (λ st', bfs_inv a0 seed ([u] ++ st'.2) [] st'.1)
    (λ c st', c ∈ visited_computers st'.1)
    (dict_get (user_to_computers a0) u)
    (event_log_append (line_processing u) a, q)) as [Hend Hall].
  - by destruct Hinv.
  - intros st' c Hc Hst'.
    apply (bfs_inv_visit_computer [u] u st' c); [done | set_solver | done].
  - intros st' c c' _ _ Hc.
    by apply (grows_visited_computers _ _ (grows_visit_computer u st' c')).
  - destruct Hend as [Hidx Hau Hac Hseed Hus Hcs Hpend Huc Hcc]. split; try done.
    + intros v Hv. apply Hpend. set_solver.
    + intros v c Hv Hnp Hc. destruct (decide (v = u)) as [->|Hne].
      * by apply Hall.
      * apply (Huc v); [done | set_solver | done].
Qed.

(** When the loop exits every marked user and computer is reachable and
    the marked sets are closed under the edges of the graph. *)
Lemma bfs_inv_analyze_compromise :
  unmarked a0 → bfs_inv a0 seed [] [] (analyze_compromise a0 seed).
Proof.
  intros Hfresh.
  apply (analyze_compromise_invariant (λ a q, bfs_inv a0 seed q [] a)).
  - intros a u q. apply bfs_inv_process_user.
  - by apply bfs_inv_start.
Qed.

Lemma bfs_inv_complete a :
  bfs_inv a0 seed [] [] a → ∀ u, reach_user a0 seed u → u ∈ visited_users a.
Proof.
  intros [Hidx Hau Hac Hseed Hus Hcs Hpend Huc Hcc] u Hu.
  induction Hu as [|u c v _ IH Hc Hv]; [done|].
  apply (Hcc c); [|set_solver|done].
  apply (Huc u); [done | set_solver | done].
Qed.
End bfs.

(** ** The constructor *)

Lemma dict_get_dict_append {V : Type} (k k' : pyval) (v : V) (d : gmap pyval (list V)) :
  dict_get (dict_append k v d) k' =
  if decide (k = k') then dict_get d k ++ [v] else dict_get d k'.
Proof.
  unfold dict_get, dict_append. case_decide as Hk.
  - subst. by rewrite lookup_insert_eq.
  - by rewrite lookup_insert_ne.
Qed.

Lemma dict_get_foldl_dict_append {V : Type} (key : row → pyval) (val : row → V)
    (rows : list row) (d : gmap pyval (list V)) (k : pyval) :
  dict_get (foldl (λ d' r, dict_append (key r) (val r) d') d rows) k =
  dict_get d k ++ (val <$> filter (λ r, key r = k) rows).
Proof.
  revert d. induction rows as [|r rows IH]; intros d.
  - cbn. by rewrite app_nil_r.
  - cbn [foldl]. rewrite IH, dict_get_dict_append, filter_cons.
    case_decide as Hk; [|done]. subst. by rewrite <-app_assoc.
Qed.

Lemma getitem_cell r label : has_label r label = true → getitem r label = Ok (cell r label).
Proof. unfold has_label, cell. by destruct (getitem r label). Qed.

Lemma getitem_raise r label :
  has_label r label = false → getitem r label = Raise (KeyError label).
Proof.
  unfold has_label. induction r as [|[l v] r IH]; cbn; [done|].
  by case_decide.
Qed.

(** The activity loop completes exactly on well-labelled rows, and then has
    appended every row. *)
Lemma index_activity_ok rows utc :
  Forall (λ r, well_labelled activity_labels r = true) rows →
  index_activity rows utc =
  Ok (foldl (λ d r, dict_append (cell r "user_id") (cell r "computer_id") d) utc rows).
Proof.
  intros Hrows. revert utc. induction Hrows as [|r rows Hr _ IH]; intros utc; [done|].
  cbn in Hr. rewrite !andb_true_iff in Hr. destruct Hr as (Hu & Hc & _).
  cbn. rewrite (getitem_cell _ _ Hu). cbn. rewrite (getitem_cell _ _ Hc). cbn.
  apply IH.
Qed.

Lemma index_activity_raise rows utc :
  ¬ Forall (λ r, well_labelled activity_labels r = true) rows →
  ∃ label, label ∈ activity_labels ∧ index_activity rows utc = Raise (KeyError label).
Proof.
  revert utc. induction rows as [|r rows IH]; intros utc Hrows.
  { destruct Hrows. constructor. }
  cbn. destruct (has_label r "user_id") eqn:Hu.
  2: { exists "user_id". split; [set_solver|]. by rewrite (getitem_raise _ _ Hu). }
  rewrite (getitem_cell _ _ Hu). cbn.
  destruct (has_label r "computer_id") eqn:Hc.
  2: { exists "computer_id". split; [set_solver|]. by rewrite (getitem_raise _ _ Hc). }
  rewrite (getitem_cell _ _ Hc). cbn.
  apply IH. intros Hall. apply Hrows. constructor; [|done].
  cbn. by rewrite Hu, Hc.
Qed.

Lemma index_access_ok rows ca ctu :
  Forall (λ r, well_labelled access_labels r = true) rows →
  index_access rows ca ctu =
  Ok (foldl (λ d r, dict_append (cell r "computer_id")
                      (cell r "affected_user_id", cell r "activity_type") d) ca rows,
      foldl (λ d r, dict_append (cell r "computer_id") (cell r "affected_user_id") d)
        ctu rows).
Proof.
  intros Hrows. revert ca ctu.
  induction Hrows as [|r rows Hr _ IH]; intros ca ctu; [done|].
  cbn in Hr. rewrite !andb_true_iff in Hr. destruct Hr as (Hc & Hu & Ht & _).
  cbn. rewrite (getitem_cell _ _ Hc). cbn. rewrite (getitem_cell _ _ Hu). cbn.
  rewrite (getitem_cell _ _ Ht). cbn. apply IH.
Qed.

Lemma index_access_raise rows ca ctu :
  ¬ Forall (λ r, well_labelled access_labels r = true) rows →
  ∃ label, label ∈ access_labels ∧ index_access rows ca ctu = Raise (KeyError label).
Proof.
  revert ca ctu. induction rows as [|r rows IH]; intros ca ctu Hrows.
  { destruct Hrows. constructor. }
  cbn. destruct (has_label r "computer_id") eqn:Hc.
  2: { exists "computer_id". split; [set_solver|]. by rewrite (getitem_raise _ _ Hc). }
  rewrite (getitem_cell _ _ Hc). cbn.
  destruct (has_label r "affected_user_id") eqn:Hu.
  2: { exists "affected_user_id". split; [set_solver|].
       by rewrite (getitem_raise _ _ Hu). }
  rewrite (getitem_cell _ _ Hu). cbn.
  destruct (has_label r "activity_type") eqn:Ht.
  2: { exists "activity_type". split; [set_solver|].
       by rewrite (getitem_raise _ _ Ht). }
  rewrite (getitem_cell _ _ Ht). cbn.
  apply IH. intros Hall. apply Hrows. constructor; [|done].
  cbn. by rewrite Hc, Hu, Ht.
Qed.

(** What a successful construction returns. *)
Lemma init_ok access activity a :
  init access activity = Ok a →
  access_logs a = access ∧ activity_logs a = activity ∧
  unmarked a ∧ event_log a = [] ∧
  (∀ u, dict_get (user_to_computers a) u = computers_of activity u) ∧
  (∀ c, dict_get (computer_to_users a) c = users_of access c) ∧
  (∀ c, dict_get (computer_activities a) c = activities_of access c).
Proof.
  unfold init. intros Hinit.
  destruct (decide (Forall (λ r, well_labelled activity_labels r = true) activity))
    as [Hact|Hact].
  2: { destruct (index_activity_raise activity ∅ Hact) as (l & _ & Hl).
       by rewrite Hl in Hinit. }
  rewrite (index_activity_ok _ _ Hact) in Hinit. cbn in Hinit.
  destruct (decide (Forall (λ r, well_labelled access_labels r = true) access))
    as [Hacc|Hacc].
  2: { destruct (index_access_raise access ∅ ∅ Hacc) as (l & _ & Hl).
       by rewrite Hl in Hinit. }
  rewrite (index_access_ok _ _ _ Hacc) in Hinit. cbn in Hinit.
  injection Hinit as <-. cbn. repeat split.
  - intros u.
    by rewrite (dict_get_foldl_dict_append (λ r, cell r "user_id")
                  (λ r, cell r "computer_id")).
  - intros c.
    by rewrite (dict_get_foldl_dict_append (λ r, cell r "computer_id")
                  (λ r, cell r "affected_user_id")).
  - intros c.
    by rewrite (dict_get_foldl_dict_append (λ r, cell r "computer_id")
                  (λ r, (cell r "affected_user_id", cell r "activity_type"))).
Qed.

(** Both dictionaries keyed by computer come from the same rows: the users of
    a computer are the users of its activities, in the same order. *)
Lemma users_of_activities_of access c : users_of access c = (activities_of access c).*1.
Proof. unfold users_of, activities_of. by rewrite <-list_fmap_compose. Qed.

(** ** The states of a run form a growing chain *)

Lemma ends_at_nil s : ends_at s [] s.
Proof. by split. Qed.

Lemma ends_at_cons s x l s' : grows s x → ends_at x l s' → ends_at s (x :: l) s'.
Proof.
  intros Hx [Hchain Hlast]. split; [by split|].
  rewrite last_cons. by destruct (last l).
Qed.

Lemma ends_at_app s l1 s1 l2 s2 :
  ends_at s l1 s1 → ends_at s1 l2 s2 → ends_at s (l1 ++ l2) s2.
Proof.
  revert s. induction l1 as [|x l1 IH]; intros s [Hchain Hlast] H2.
  - cbn in Hlast. by subst.
  - destruct Hchain as [Hx Hchain]. cbn. apply ends_at_cons; [done|].
    apply IH; [|done]. split; [done|].
    rewrite last_cons in Hlast. by destruct (last l1).
Qed.

Lemma ends_at_grows s l s' : ends_at s l s' → grows s s'.
Proof.
  revert s. induction l as [|x l IH]; intros s [Hchain Hlast].
  - cbn in Hlast. by subst.
  - destruct Hchain as [Hx Hchain]. etrans; [done|]. apply IH. split; [done|].
    rewrite last_cons in Hlast. by destruct (last l).
Qed.

Lemma chain_lookup s l i x : chain s l → l !! i = Some x → grows s x.
Proof.
  revert s i. induction l as [|y l IH]; intros s i Hchain Hi; [done|].
  destruct Hchain as [Hy Hchain]. destruct i as [|i]; simplify_eq/=; [done|].
  etrans; [done|]. by eapply IH.
Qed.

Lemma chain_lookup_le s l i j x y :
  chain s l → i ≤ j → l !! i = Some x → l !! j = Some y → grows x y.
Proof.
  revert s i j. induction l as [|z l IH]; intros s i j Hchain Hij Hi Hj; [done|].
  destruct Hchain as [Hz Hchain].
  destruct i as [|i], j as [|j]; simplify_eq/=; [done | | lia |].
  - by eapply chain_lookup.
  - eapply (IH _ i j); [done | lia | done | done].
Qed.

Lemma ends_at_loop_steps {S B : Type} (π : S → SecurityAnalyzer) (body : S → B → S)
    (steps : S → B → list SecurityAnalyzer) (s : S) (l : list B) :
  (∀ s' x, ends_at (π s') (steps s' x) (π (body s' x))) →
  ends_at (π s) (loop_steps body steps s l) (π (foldl body s l)).
Proof.
  intros Hbody. revert s. induction l as [|x l IH]; intros s; cbn.
  - apply ends_at_nil.
  - eapply ends_at_app; [apply Hbody | apply IH].
Qed.

Lemma ends_at_loop_steps_object {B : Type} (body : SecurityAnalyzer → B → SecurityAnalyzer)
    (steps : SecurityAnalyzer → B → list SecurityAnalyzer) (a : SecurityAnalyzer)
    (l : list B) :
  (∀ a' x, ends_at a' (steps a' x) (body a' x)) →
  ends_at a (loop_steps body steps a l) (foldl body a l).
Proof. apply (ends_at_loop_steps id). Qed.

Lemma ends_at_loop_steps_config {B : Type} (body : config → B → config)
    (steps : config → B → list SecurityAnalyzer) (a : SecurityAnalyzer)
    (q : list pyval) (l : list B) :
  (∀ st x, ends_at st.1 (steps st x) (body st x).1) →
  ends_at a (loop_steps body steps (a, q) l) (foldl body (a, q) l).1.
Proof. apply (ends_at_loop_steps fst body steps (a, q)). Qed.

Lemma ends_at_visit_user c st u :
  ends_at st.1 (visit_user_steps c st u) (visit_user c st u).1.
Proof.
  unfold visit_user_steps, visit_user. case_decide; [apply ends_at_nil|].
  repeat (apply ends_at_cons; [auto with grows|]). apply ends_at_nil.
Qed.

Lemma ends_at_visit_computer u st c :
  ends_at st.1 (visit_computer_steps u st c) (visit_computer u st c).1.
Proof.
  unfold visit_computer_steps, visit_computer. case_decide; [apply ends_at_nil|].
  cbn zeta.
  eapply ends_at_app;
    [repeat (apply ends_at_cons; [auto with grows|]); apply ends_at_nil|].
  eapply ends_at_app.
  - apply ends_at_loop_steps_object. intros a e.
    apply ends_at_cons; [apply grows_log_activity | apply ends_at_nil].
  - apply ends_at_loop_steps_config. intros st' v.
    apply ends_at_visit_user.
Qed.

Lemma ends_at_process_user a u q :
  ends_at a (process_user_steps a u q) (process_user a u q).1.
Proof.
  unfold process_user_steps, process_user. cbn zeta.
  apply ends_at_cons; [auto with grows|].
  apply ends_at_loop_steps_config. intros st' c.
  apply ends_at_visit_computer.
Qed.

Lemma ends_at_while_queue fuel a q r :
  while_queue fuel a q = Some r → ends_at a (while_queue_steps fuel a q) r.
Proof.
  revert a q. induction fuel as [|fuel IH]; intros a [|u q] Hr; cbn in Hr;
    simplify_eq; try apply ends_at_nil.
  cbn [while_queue_steps].
  eapply ends_at_app; [apply ends_at_process_user | by apply IH].
Qed.

Lemma ends_at_analyze_compromise a u :
  ends_at a (tail (analyze_compromise_steps a u)) (analyze_compromise a u).
Proof.
  unfold analyze_compromise_steps. cbn [tail].
  do 3 (apply ends_at_cons; [auto with grows|]).
  apply ends_at_while_queue, analyze_compromise_runs.
Qed.

(** ** Line kinds and line counts *)

Lemma classify_started u : classify (line_started u) = KStarted.
Proof. reflexivity. Qed.
Lemma classify_processing u : classify (line_processing u) = KProcessing.
Proof. reflexivity. Qed.
Lemma classify_accessed u c : classify (line_accessed u c) = KAccessed.
Proof. reflexivity. Qed.
Lemma classify_activities c : classify (line_activities c) = KHeader.
Proof. reflexivity. Qed.
Lemma classify_activity t u : classify (line_activity t u) = KActivity.
Proof. reflexivity. Qed.
Lemma classify_affected c u : classify (line_affected c u) = KAffected.
Proof. reflexivity. Qed.

Lemma count_kind_app k l1 l2 : count_kind k (l1 ++ l2) = count_kind k l1 + count_kind k l2.
Proof. unfold count_kind. by rewrite filter_app, length_app. Qed.

Lemma count_kind_line k line :
  count_kind k [line] = if decide (classify line = k) then 1 else 0.
Proof. unfold count_kind. rewrite filter_cons, filter_nil. by case_decide. Qed.

Lemma count_kind_fmap_other {B : Type} k (f : B → string) (l : list B) :
  (∀ x, classify (f x) ≠ k) → count_kind k (f <$> l) = 0.
Proof.
  intros Hf. unfold count_kind. induction l as [|x l IH]; [done|].
  rewrite fmap_cons, filter_cons. case_decide as Hx; [by apply Hf in Hx | done].
Qed.

Lemma size_union_fresh (X : gset pyval) (x : pyval) : x ∉ X → size (X ∪ {[x]}) = S (size X).
Proof.
  intros Hx. rewrite size_union by set_solver. rewrite size_singleton. lia.
Qed.

Arguments count_kind : simpl never.

Ltac count_lines :=
  rewrite ?count_kind_app, ?count_kind_line, ?classify_started, ?classify_processing,
    ?classify_accessed, ?classify_activities, ?classify_activity, ?classify_affected;
  repeat match goal with
         | |- context [decide (?k = ?k')] => destruct (decide (k = k')); [try done|try done]
         end;
  cbn.

(** ** One block per computer, one line per affected user *)

Lemma classify_activity_line_ne k :
  k ≠ KActivity → ∀ e : pyval * pyval, classify (line_activity e.2 e.1) ≠ k.
Proof. intros Hk e. by rewrite classify_activity. Qed.

Lemma block_counts_visit_user c st v :
  block_counts st.1 → block_counts (visit_user c st v).1.
Proof.
  unfold visit_user. case_decide; [done|].
  unfold block_counts. cbn. count_lines. intros []. lia.
Qed.

Lemma block_counts_visit_computer u st c :
  block_counts st.1 → block_counts (visit_computer u st c).1.
Proof.
  unfold visit_computer. case_decide as Hvis; [done|]. intros [Hacc Hhdr].
  rewrite foldl_log_activity. cbn.
  apply (foldl_invariant (visit_user c) (λ st', block_counts st'.1)).
  - unfold block_counts. cbn. count_lines.
    rewrite !count_kind_fmap_other by (by apply classify_activity_line_ne).
    rewrite size_union_fresh by done. lia.
  - intros st' v _. apply block_counts_visit_user.
Qed.

Lemma block_counts_process_user a u q :
  block_counts a → block_counts (process_user a u q).1.
Proof.
  intros [Hacc Hhdr]. unfold process_user.
  apply (foldl_invariant (visit_computer u) (λ st', block_counts st'.1)).
  - unfold block_counts. cbn. count_lines. lia.
  - intros st' c _. apply block_counts_visit_computer.
Qed.

Lemma block_counts_analyze_compromise a u :
  block_counts a → block_counts (analyze_compromise a u).
Proof.
  intros [Hacc Hhdr].
  apply (analyze_compromise_invariant (λ a' _, block_counts a')).
  - intros a' u' q'. apply block_counts_process_user.
  - unfold block_counts, analyze_start. cbn. count_lines. lia.
Qed.

Lemma affected_counts_visit_user c st v :
  affected_counts st.1 → affected_counts (visit_user c st v).1.
Proof.
  unfold visit_user. case_decide; [done|].
  unfold affected_counts. cbn. count_lines.
  rewrite size_union_fresh by done. intros ?. lia.
Qed.

Lemma affected_counts_visit_computer u st c :
  affected_counts st.1 → affected_counts (visit_computer u st c).1.
Proof.
  unfold visit_computer. case_decide as Hvis; [done|]. intros Haff.
  rewrite foldl_log_activity. cbn.
  apply (foldl_invariant (visit_user c) (λ st', affected_counts st'.1)).
  - unfold affected_counts in *. cbn. count_lines.
    rewrite !count_kind_fmap_other by (by apply classify_activity_line_ne). lia.
  - intros st' v _. apply affected_counts_visit_user.
Qed.

Lemma affected_counts_process_user a u q :
  affected_counts a → affected_counts (process_user a u q).1.
Proof.
  intros Haff. unfold process_user.
  apply (foldl_invariant (visit_computer u) (λ st', affected_counts st'.1)).
  - unfold affected_counts in *. cbn. count_lines. lia.
  - intros st' c _. apply affected_counts_visit_computer.
Qed.

Lemma affected_counts_analyze_compromise a u :
  unmarked a → event_log a = [] → affected_counts (analyze_compromise a u).
Proof.
  intros (Hvu & _) Hlog.
  apply (analyze_compromise_invariant (λ a' _, affected_counts a')).
  - intros a' u' q'. apply affected_counts_process_user.
  - unfold affected_counts, analyze_start. cbn. rewrite Hlog, Hvu. count_lines.
    rewrite size_union_fresh by set_solver. by rewrite size_empty.
Qed.

(** ** One processing line per dequeued user *)

Lemma processing_counts_visit_user k c st v :
  processing_counts k st.1 st.2 →
  processing_counts k (visit_user c st v).1 (visit_user c st v).2.
Proof.
  unfold visit_user. case_decide; [done|].
  unfold processing_counts. cbn. count_lines.
  rewrite size_union_fresh by done. rewrite length_app. cbn. lia.
Qed.

Lemma processing_counts_visit_computer k u st c :
  processing_counts k st.1 st.2 →
  processing_counts k (visit_computer u st c).1 (visit_computer u st c).2.
Proof.
  unfold visit_computer. case_decide as Hvis; [done|]. intros Hcount.
  rewrite foldl_log_activity. cbn.
  apply (foldl_invariant (visit_user c) (λ st', processing_counts k st'.1 st'.2)).
  - unfold processing_counts in *. cbn. count_lines.
    rewrite !count_kind_fmap_other by (by apply classify_activity_line_ne). lia.
  - intros st' v _. apply processing_counts_visit_user.
Qed.

Lemma processing_counts_process_user k a u q :
  processing_counts k a (u :: q) →
  processing_counts k (process_user a u q).1 (process_user a u q).2.
Proof.
  intros Hcount. unfold process_user.
  apply (foldl_invariant (visit_computer u) (λ st', processing_counts k st'.1 st'.2)).
  - unfold processing_counts in *. cbn in *. count_lines. lia.
  - intros st' c _. apply processing_counts_visit_computer.
Qed.

(** A run that finds every marked user processed once leaves every marked
    user processed once, the seed once more if it was marked already. *)
Lemma processing_counts_analyze_compromise a u :
  processing_counts 0 a [] →
  processing_counts (if decide (u ∈ visited_users a) then 1 else 0)
    (analyze_compromise a u) [].
Proof.
  intros Hcount.
  apply (analyze_compromise_invariant
    (processing_counts (if decide (u ∈ visited_users a) then 1 else 0))).
  - intros a' u' q'. apply processing_counts_process_user.
  - unfold processing_counts, analyze_start in *. cbn in *. count_lines.
    case_decide as Hu.
    + assert (visited_users a ∪ {[u]} = visited_users a) as -> by set_solver. lia.
    + rewrite size_union_fresh by done. lia.
Qed.

(** ** Activity lines and the computers they belong to *)

Lemma activity_lines_known_visit_user c st v :
  activity_lines_known st.1 → activity_lines_known (visit_user c st v).1.
Proof.
  unfold visit_user. case_decide; [done|]. intros [Hlines Hacts]. split; cbn.
  - intros line [Hin| ->%list_elem_of_singleton]%elem_of_app Hk; [by apply Hlines|].
    by rewrite classify_affected in Hk.
  - intros c' u t Hc' Hut. apply elem_of_app. left. by eapply Hacts.
Qed.

Lemma activity_lines_known_visit_computer u st c :
  activity_lines_known st.1 → activity_lines_known (visit_computer u st c).1.
Proof.
  unfold visit_computer. case_decide as Hvis; [done|]. intros [Hlines Hacts].
  rewrite foldl_log_activity. cbn.
  apply (foldl_invariant (visit_user c) (λ st', activity_lines_known st'.1)).
  2: { intros st' v _. apply activity_lines_known_visit_user. }
  split; cbn.
  - intros line Hin Hk. rewrite !elem_of_app in Hin.
    destruct Hin as [[[Hin|Hin]|Hin]|Hin].
    + destruct (Hlines line Hin Hk) as (c' & u' & t & ? & ? & ?).
      exists c', u', t. split; [set_solver | done].
    + apply list_elem_of_singleton in Hin as ->. by rewrite classify_accessed in Hk.
    + apply list_elem_of_singleton in Hin as ->. by rewrite classify_activities in Hk.
    + apply list_elem_of_fmap in Hin as ([u' t] & -> & Hin).
      exists c, u', t. split; [set_solver | done].
  - intros c' u' t [Hc'| ->%elem_of_singleton]%elem_of_union Hut.
    + rewrite !elem_of_app. do 3 left. by eapply Hacts.
    + apply elem_of_app. right. apply list_elem_of_fmap. by exists (u', t).
Qed.

Lemma activity_lines_known_process_user a u q :
  activity_lines_known a → activity_lines_known (process_user a u q).1.
Proof.
  intros [Hlines Hacts]. unfold process_user.
  apply (foldl_invariant (visit_computer u) (λ st', activity_lines_known st'.1)).
  2: { intros st' c _. apply activity_lines_known_visit_computer. }
  split; cbn.
  - intros line [Hin| ->%list_elem_of_singleton]%elem_of_app Hk; [by apply Hlines|].
    by rewrite classify_processing in Hk.
  - intros c' u' t Hc' Hut. apply elem_of_app. left. by eapply Hacts.
Qed.

Lemma activity_lines_known_analyze_compromise a u :
  activity_lines_known a → activity_lines_known (analyze_compromise a u).
Proof.
  intros [Hlines Hacts].
  apply (analyze_compromise_invariant (λ a' _, activity_lines_known a')).
  - intros a' u' q'. apply activity_lines_known_process_user.
  - unfold analyze_start. split; cbn.
    + intros line [Hin| ->%list_elem_of_singleton]%elem_of_app Hk; [by apply Hlines|].
      by rewrite classify_started in Hk.
    + intros c' u' t Hc' Hut. apply elem_of_app. left. by eapply Hacts.
Qed.

Lemma last_cons_default {A : Type} (x : A) (l : list A) :
  last (x :: l) = Some (default x (last l)).
Proof. rewrite last_cons. by destruct (last l). Qed.

(** The list of states starts with the object the method is called on and
    ends with the one it returns. *)
Lemma analyze_compromise_steps_ends a u :
  head (analyze_compromise_steps a u) = Some a ∧
  last (analyze_compromise_steps a u) = Some (analyze_compromise a u) ∧
  chain a (analyze_compromise_steps a u).
Proof.
  destruct (ends_at_analyze_compromise a u) as [Hchain Hlast].
  unfold analyze_compromise_steps in *. cbn [tail] in *.
  split; [done|]. split.
  - by rewrite last_cons_default, Hlast.
  - split; [done|]. exact Hchain.
Qed.

(** ** Computers that are already marked *)

Lemma visit_computer_visited u st c :
  c ∈ visited_computers st.1 → visit_computer u st c = st.
Proof. intros Hc. unfold visit_computer. by case_decide. Qed.

Lemma foldl_visit_computer_visited u st l :
  (∀ c, c ∈ l → c ∈ visited_computers st.1) → foldl (visit_computer u) st l = st.
Proof.
  intros Hl. induction l as [|c l IH]; [done|].
  cbn. rewrite visit_computer_visited by (apply Hl; left).
  apply IH. intros c' Hc'. apply Hl. by right.
Qed.

Lemma processing_counts_first_run a u :
  unmarked a → event_log a = [] → processing_counts 0 (analyze_compromise a u) [].
Proof.
  intros (Hvu & _) Hlog.
  pose proof (processing_counts_analyze_compromise a u) as Hrun.
  rewrite decide_False in Hrun by (rewrite Hvu; set_solver).
  apply Hrun. unfold processing_counts. by rewrite Hlog, Hvu, size_empty.
Qed.

(** * The claims *)

Lemma init_scenario : init scenario_access scenario_activity = Ok scenario_analyzer.
Proof. vm_compute. reflexivity. Qed.

Lemma init_revisit : init scenario_access revisit_activity = Ok revisit_analyzer.
Proof. vm_compute. reflexivity. Qed.

(** C1. On the object built from any two tables of rows, and for any seed,
    the affected users when [analyze_compromise] returns are exactly the
    users reachable from the seed by alternating [user_to_computers] and
    [computer_to_users] edges, and the affected computers are exactly the
    computers reachable that way. *)
Theorem analyze_compromise_reachability access activity a seed :
  init access activity = Ok a →
  (∀ u, u ∈ affected_users (analyze_compromise a seed) ↔ reach_user a seed u) ∧
  (∀ c, c ∈ affected_computers (analyze_compromise a seed) ↔ reach_computer a seed c).
Proof.
  intros Hinit. destruct (init_ok _ _ _ Hinit) as (_ & _ & Hfresh & _).
  pose proof (bfs_inv_analyze_compromise a seed Hfresh) as Hinv.
  pose proof (bfs_inv_complete a seed _ Hinv) as Hcomplete.
  destruct Hinv as [Hidx Hau Hac Hseed Hus Hcs Hpend Huc Hcc].
  rewrite Hau, Hac. split.
  - intros u. split; [apply Hus | apply Hcomplete].
  - intros c. split; [apply Hcs|].
    intros (u & Hu & Hc). apply (Huc u); [by apply Hcomplete | set_solver | done].
Qed.

Lemma analyze_compromise_reachability_witness :
  (∀ u, u ∈ affected_users (analyze_compromise scenario_analyzer (Str "U1"))
        ↔ reach_user scenario_analyzer (Str "U1") u) ∧
  (∀ c, c ∈ affected_computers (analyze_compromise scenario_analyzer (Str "U1"))
        ↔ reach_computer scenario_analyzer (Str "U1") c).
Proof.
  apply (analyze_compromise_reachability scenario_access scenario_activity).
  vm_compute. reflexivity.
Defined.

(** C2. On the scenario of the specification, analysing from [U1] ends with
    the affected users [U1], [U2], [U3], the affected computer [C1] and the
    ten lines of [scenario_log], in that order. *)
Theorem scenario_result :
  init scenario_access scenario_activity = Ok scenario_analyzer ∧
  affected_users (analyze_compromise scenario_analyzer (Str "U1"))
    = {[Str "U1"; Str "U2"; Str "U3"]} ∧
  affected_computers (analyze_compromise scenario_analyzer (Str "U1")) = {[Str "C1"]} ∧
  event_log (analyze_compromise scenario_analyzer (Str "U1")) = scenario_log.
Proof. repeat split; vm_compute; reflexivity. Qed.

(** C3. [analyze_compromise] terminates on every object and seed: every
    iteration of the loop lowers [loop_measure] (the length of the deque plus
    the number of listed users not yet visited) by exactly one, so the loop
    exits, with the deque empty, within one iteration more than there are
    users listed in [computer_to_users], and returns the same object for any
    larger bound.  On an unmarked object with an empty log the iterations
    are as many as the users visited: each is dequeued once. *)
Theorem analyze_compromise_terminates a seed :
  (∀ a' u q,
     S (loop_measure (process_user a' u q).1 (process_user a' u q).2)
     = loop_measure a' (u :: q)) ∧
  (∀ fuel, S (size (listed_users a)) ≤ fuel →
     analyze_compromise_fuel fuel a seed = Some (analyze_compromise a seed)) ∧
  (unmarked a → event_log a = [] →
     count_kind KProcessing (event_log (analyze_compromise a seed))
     = size (visited_users (analyze_compromise a seed))).
Proof.
  split; [|split].
  - intros a' u q. rewrite process_user_measure. done.
  - intros fuel Hfuel. unfold analyze_compromise_fuel.
    eapply while_queue_fuel_mono; [apply analyze_compromise_runs|].
    etrans; [|exact Hfuel]. unfold loop_measure. cbn.
    apply le_n_S, subseteq_size.
    change (listed_users (analyze_start a seed)) with (listed_users a).
    set_solver.
  - intros Hfresh Hlog.
    pose proof (processing_counts_first_run a seed Hfresh Hlog) as Hcount.
    unfold processing_counts in Hcount. cbn in Hcount. lia.
Qed.

Lemma analyze_compromise_terminates_witness :
  analyze_compromise_fuel 3 scenario_analyzer (Str "U1")
  = Some (analyze_compromise scenario_analyzer (Str "U1")) ∧
  count_kind KProcessing (event_log (analyze_compromise scenario_analyzer (Str "U1")))
  = size (visited_users (analyze_compromise scenario_analyzer (Str "U1"))).
Proof.
  destruct (analyze_compromise_terminates scenario_analyzer (Str "U1"))
    as (_ & Hfuel & Hcount).
  split.
  - apply Hfuel. vm_compute. lia.
  - apply Hcount; [by repeat split | reflexivity].
Defined.

(** C5. When the seed has no entry in [user_to_computers], the run on a
    freshly built object is one normal iteration of the loop: the log is the
    start line followed by the seed's processing line, the seed is the only
    affected user and no computer is affected. *)
Theorem seed_without_computers access activity a seed :
  init access activity = Ok a →
  dict_get (user_to_computers a) seed = [] →
  analyze_compromise_fuel 1 a seed = Some (analyze_compromise a seed) ∧
  event_log (analyze_compromise a seed) = [line_started seed; line_processing seed] ∧
  affected_users (analyze_compromise a seed) = {[seed]} ∧
  affected_computers (analyze_compromise a seed) = ∅.
Proof.
  intros Hinit Hnone.
  destruct (init_ok _ _ _ Hinit) as (_ & _ & (Hvu & Hvc & Hau & Hac) & Hlog & _).
  assert (analyze_compromise_fuel 1 a seed =
          Some (event_log_append (line_processing seed) (analyze_start a seed))) as Hrun.
  { unfold analyze_compromise_fuel. cbn. unfold process_user. cbn. by rewrite Hnone. }
  rewrite <-(analyze_compromise_fuel_eq _ _ _ _ Hrun).
  split; [done|]. cbn. rewrite Hlog, Hau, Hac. repeat split.
  by rewrite union_empty_l_L.
Qed.

Lemma seed_without_computers_witness :
  analyze_compromise_fuel 1 scenario_analyzer (Str "U9")
    = Some (analyze_compromise scenario_analyzer (Str "U9")) ∧
  event_log (analyze_compromise scenario_analyzer (Str "U9"))
    = [line_started (Str "U9"); line_processing (Str "U9")] ∧
  affected_users (analyze_compromise scenario_analyzer (Str "U9")) = {[Str "U9"]} ∧
  affected_computers (analyze_compromise scenario_analyzer (Str "U9")) = ∅.
Proof.
  apply (seed_without_computers scenario_access scenario_activity).
  - vm_compute. reflexivity.
  - vm_compute. reflexivity.
Defined.

(** C9. [analyze_compromise] leaves the three dictionaries, and the two
    tables kept with them, exactly as they were, in the object it returns
    and in every state the object goes through on the way. *)
Theorem analyze_compromise_frame a seed :
  user_to_computers (analyze_compromise a seed) = user_to_computers a ∧
  computer_to_users (analyze_compromise a seed) = computer_to_users a ∧
  computer_activities (analyze_compromise a seed) = computer_activities a ∧
  access_logs (analyze_compromise a seed) = access_logs a ∧
  activity_logs (analyze_compromise a seed) = activity_logs a ∧
  last (analyze_compromise_steps a seed) = Some (analyze_compromise a seed) ∧
  Forall (same_index a) (analyze_compromise_steps a seed).
Proof.
  destruct (grows_index _ _ (grows_analyze_compromise a seed)) as (?&?&?&?&?).
  do 5 (split; [done|]).
  destruct (analyze_compromise_steps_ends a seed) as (_ & Hlast & Hchain).
  split; [done|].
  apply Forall_lookup. intros i s Hs.
  by apply grows_index, (chain_lookup _ _ _ _ Hchain Hs).
Qed.

(** C4, as the claim states it: construction would fail whenever a row of
    either table has a required field missing.  It does not: a row whose
    [user_id] cell holds no value is indexed under the key [None]. *)
Lemma malformed_row_accepted :
  ¬ (∀ access activity,
       Exists (malformed activity_labels) activity ∨
       Exists (malformed access_labels) access →
       ∃ e, init access activity = Raise e).
Proof.
  intros Hclaim. destruct (Hclaim [] none_activity) as [e He].
  - left. constructor. exists "user_id". split; [set_solver|]. by right.
  - vm_compute in He. discriminate.
Qed.

(** C4, amended. On tables whose rows carry every column label at most
    once, the constructor raises, with a [KeyError] and without returning an
    object, exactly when some row lacks one of the labels its loop reads;
    the values in the cells are not inspected.  When it returns, the object
    is unmarked, its log is empty and the three dictionaries hold every row
    of the two tables, in order. *)
Theorem init_all_or_nothing access activity :
  Forall distinct_labels activity →
  Forall distinct_labels access →
  ((∃ label, init access activity = Raise (KeyError label)) ↔
   ¬ (Forall (λ r, well_labelled activity_labels r = true) activity ∧
      Forall (λ r, well_labelled access_labels r = true) access)) ∧
  (∀ a, init access activity = Ok a →
     unmarked a ∧ event_log a = [] ∧
     (∀ u, dict_get (user_to_computers a) u = computers_of activity u) ∧
     (∀ c, dict_get (computer_to_users a) c = users_of access c) ∧
     (∀ c, dict_get (computer_activities a) c = activities_of access c)).
Proof.
  intros _ _. split.
  - unfold init. split.
    + intros [label Hraise] [Hact Hacc].
      rewrite (index_activity_ok _ _ Hact) in Hraise. cbn in Hraise.
      by rewrite (index_access_ok _ _ _ Hacc) in Hraise.
    + intros Hbad.
      destruct (decide (Forall (λ r, well_labelled activity_labels r = true) activity))
        as [Hact|Hact].
      * rewrite (index_activity_ok _ _ Hact). cbn.
        destruct (index_access_raise access ∅ ∅) as (label & _ & ->); [tauto|].
        by exists label.
      * destruct (index_activity_raise activity ∅ Hact) as (label & _ & ->).
        by exists label.
  - intros a Hinit. by destruct (init_ok _ _ _ Hinit) as (_ & _ & ? & ? & ? & ? & ?).
Qed.

Lemma init_all_or_nothing_witness :
  (Forall distinct_labels scenario_activity ∧ Forall distinct_labels scenario_access) ∧
  unmarked scenario_analyzer ∧ event_log scenario_analyzer = [] ∧
  (∀ u, dict_get (user_to_computers scenario_analyzer) u
        = computers_of scenario_activity u) ∧
  (∀ c, dict_get (computer_to_users scenario_analyzer) c = users_of scenario_access c) ∧
  (∀ c, dict_get (computer_activities scenario_analyzer) c
        = activities_of scenario_access c).
Proof.
  assert (Forall distinct_labels scenario_activity) as Hactivity.
  { repeat constructor; rewrite ?elem_of_cons, ?elem_of_nil; intuition discriminate. }
  assert (Forall distinct_labels scenario_access) as Haccess.
  { repeat constructor; rewrite ?elem_of_cons, ?elem_of_nil; intuition discriminate. }
  split; [by split|].
  apply (proj2 (init_all_or_nothing scenario_access scenario_activity Hactivity Haccess)).
  vm_compute. reflexivity.
Defined.

(** C6. A computer that is already marked is skipped as a whole when it is
    reached again: the object, its log and the deque are left as they are
    and no statement of the block runs.  Over a run on a freshly built
    object the log therefore holds one accessed line and one activities
    header per affected computer, and one affected-user line per affected
    user other than the seed; with the record [(U2, C1)] added to the
    scenario the log is the one of the scenario, line for line. *)
Theorem revisit_suppressed :
  (∀ u st c, c ∈ visited_computers st.1 →
     visit_computer u st c = st ∧ visit_computer_steps u st c = []) ∧
  (∀ access activity a seed, init access activity = Ok a →
     count_kind KAccessed (event_log (analyze_compromise a seed))
       = size (affected_computers (analyze_compromise a seed)) ∧
     count_kind KHeader (event_log (analyze_compromise a seed))
       = size (affected_computers (analyze_compromise a seed)) ∧
     count_kind KAffected (event_log (analyze_compromise a seed)) + 1
       = size (affected_users (analyze_compromise a seed))) ∧
  init scenario_access revisit_activity = Ok revisit_analyzer ∧
  event_log (analyze_compromise revisit_analyzer (Str "U1")) = scenario_log.
Proof.
  split; [|split; [|split]].
  - intros u st c Hc. split; [by apply visit_computer_visited|].
    unfold visit_computer_steps. by case_decide.
  - intros access activity a seed Hinit.
    destruct (init_ok _ _ _ Hinit) as (_ & _ & Hfresh & Hlog & _).
    destruct (bfs_inv_analyze_compromise a seed Hfresh) as [_ -> -> _ _ _ _ _ _].
    destruct (block_counts_analyze_compromise a seed) as [Hacc Hhdr].
    { destruct Hfresh as (_ & Hvc & _). unfold block_counts.
      by rewrite Hlog, Hvc, size_empty. }
    pose proof (affected_counts_analyze_compromise a seed Hfresh Hlog) as Haff.
    done.
  - vm_compute. reflexivity.
  - vm_compute. reflexivity.
Qed.

Lemma revisit_suppressed_witness :
  visit_computer (Str "U2")
    (visited_computers_add (Str "C1") revisit_analyzer, []) (Str "C1")
  = (visited_computers_add (Str "C1") revisit_analyzer, []) ∧
  count_kind KHeader (event_log (analyze_compromise revisit_analyzer (Str "U1")))
  = size (affected_computers (analyze_compromise revisit_analyzer (Str "U1"))).
Proof.
  split.
  - apply (proj1 revisit_suppressed (Str "U2")
             (visited_computers_add (Str "C1") revisit_analyzer, []) (Str "C1")).
    vm_compute. reflexivity.
  - apply (proj1 (proj2 revisit_suppressed) scenario_access revisit_activity).
    vm_compute. reflexivity.
Defined.

(** C7. List the states the object goes through during a run, statement by
    statement, from the object the run starts on to the one it returns.
    Of any two of them the later one has every visited and affected user and
    computer of the earlier one, so the two affected sets never shrink in
    size. *)
Theorem marks_only_grow a seed :
  head (analyze_compromise_steps a seed) = Some a ∧
  last (analyze_compromise_steps a seed) = Some (analyze_compromise a seed) ∧
  ∀ i j s s',
    i ≤ j →
    analyze_compromise_steps a seed !! i = Some s →
    analyze_compromise_steps a seed !! j = Some s' →
    visited_users s ⊆ visited_users s' ∧
    visited_computers s ⊆ visited_computers s' ∧
    affected_users s ⊆ affected_users s' ∧
    affected_computers s ⊆ affected_computers s' ∧
    size (affected_users s) ≤ size (affected_users s') ∧
    size (affected_computers s) ≤ size (affected_computers s').
Proof.
  destruct (analyze_compromise_steps_ends a seed) as (Hhead & Hlast & Hchain).
  do 2 (split; [done|]).
  intros i j s s' Hij Hi Hj.
  assert (grows s s') as [Hvu Hvc Hau Hac _ _].
  { destruct i as [|i].
    - cbn in Hi. injection Hi as <-. by eapply chain_lookup.
    - destruct j as [|j]; [lia|].
      unfold analyze_compromise_steps in *. cbn in Hi, Hj.
      destruct Hchain as [_ Hchain].
      eapply (chain_lookup_le _ _ i j); [exact Hchain | lia | done | done]. }
  repeat split; try done; by apply subseteq_size.
Qed.

Lemma marks_only_grow_witness :
  visited_users scenario_analyzer
    ⊆ visited_users (visited_users_add (Str "U1") scenario_analyzer) ∧
  visited_computers scenario_analyzer
    ⊆ visited_computers (visited_users_add (Str "U1") scenario_analyzer) ∧
  affected_users scenario_analyzer
    ⊆ affected_users (visited_users_add (Str "U1") scenario_analyzer) ∧
  affected_computers scenario_analyzer
    ⊆ affected_computers (visited_users_add (Str "U1") scenario_analyzer) ∧
  size (affected_users scenario_analyzer)
    ≤ size (affected_users (visited_users_add (Str "U1") scenario_analyzer)) ∧
  size (affected_computers scenario_analyzer)
    ≤ size (affected_computers (visited_users_add (Str "U1") scenario_analyzer)).
Proof.
  apply (proj2 (proj2 (marks_only_grow scenario_analyzer (Str "U1"))) 0 1).
  - lia.
  - reflexivity.
  - reflexivity.
Defined.

(** C8. A second call on an object that has completed a run starts from what
    the first run left: nothing is reset, the marks of the first run stay and
    its log is a prefix of the log after the second run.  Computers marked
    by the first run get no second block (the log still holds one header per
    marked computer) and users marked by it are not processed again (one
    processing line per marked user), except that a second seed that the
    first run had visited is: it adds its start line and its processing line
    and nothing else. *)
Theorem second_run_accumulates access activity a seed1 seed2 :
  init access activity = Ok a →
  visited_users (analyze_compromise a seed1)
    ⊆ visited_users (analyze_compromise (analyze_compromise a seed1) seed2) ∧
  visited_computers (analyze_compromise a seed1)
    ⊆ visited_computers (analyze_compromise (analyze_compromise a seed1) seed2) ∧
  affected_users (analyze_compromise a seed1)
    ⊆ affected_users (analyze_compromise (analyze_compromise a seed1) seed2) ∧
  affected_computers (analyze_compromise a seed1)
    ⊆ affected_computers (analyze_compromise (analyze_compromise a seed1) seed2) ∧
  event_log (analyze_compromise a seed1)
    `prefix_of` event_log (analyze_compromise (analyze_compromise a seed1) seed2) ∧
  count_kind KHeader (event_log (analyze_compromise (analyze_compromise a seed1) seed2))
    = size (visited_computers (analyze_compromise (analyze_compromise a seed1) seed2)) ∧
  count_kind KProcessing
      (event_log (analyze_compromise (analyze_compromise a seed1) seed2))
    = size (visited_users (analyze_compromise (analyze_compromise a seed1) seed2))
      + (if decide (seed2 ∈ visited_users (analyze_compromise a seed1)) then 1 else 0) ∧
  (seed2 ∈ visited_users (analyze_compromise a seed1) →
     event_log (analyze_compromise (analyze_compromise a seed1) seed2)
       = event_log (analyze_compromise a seed1)
         ++ [line_started seed2; line_processing seed2] ∧
     visited_users (analyze_compromise (analyze_compromise a seed1) seed2)
       = visited_users (analyze_compromise a seed1) ∧
     visited_computers (analyze_compromise (analyze_compromise a seed1) seed2)
       = visited_computers (analyze_compromise a seed1) ∧
     affected_users (analyze_compromise (analyze_compromise a seed1) seed2)
       = affected_users (analyze_compromise a seed1) ∧
     affected_computers (analyze_compromise (analyze_compromise a seed1) seed2)
       = affected_computers (analyze_compromise a seed1)).
Proof.
  intros Hinit. set (r1 := analyze_compromise a seed1).
  destruct (init_ok _ _ _ Hinit) as (_ & _ & Hfresh & Hlog & _).
  destruct (grows_analyze_compromise r1 seed2) as [Hvu Hvc Hau Hac Hpre _].
  do 5 (split; [done|]). split; [|split].
  - apply block_counts_analyze_compromise, block_counts_analyze_compromise.
    destruct Hfresh as (_ & Hvc0 & _). unfold block_counts.
    by rewrite Hlog, Hvc0, size_empty.
  - pose proof (processing_counts_analyze_compromise r1 seed2
                  (processing_counts_first_run a seed1 Hfresh Hlog)) as Hcount.
    unfold processing_counts in Hcount. cbn in Hcount. lia.
  - intros Hseed.
    destruct (bfs_inv_analyze_compromise a seed1 Hfresh)
      as [(_&_&Hutc&_&_) Hau1 _ _ _ _ _ Hclosed _].
    fold r1 in Hutc, Hau1, Hclosed. clearbody r1.
    assert (analyze_compromise_fuel 1 r1 seed2 =
            Some (event_log_append (line_processing seed2) (analyze_start r1 seed2)))
      as Hrun.
    { unfold analyze_compromise_fuel. cbn. unfold process_user.
      rewrite foldl_visit_computer_visited; [done|].
      intros c Hc. cbn in Hc. rewrite Hutc in Hc. cbn.
      apply (Hclosed seed2); [done | set_solver | done]. }
    rewrite <-(analyze_compromise_fuel_eq _ _ _ _ Hrun). cbn.
    rewrite <-app_assoc. repeat split; [set_solver | set_solver].
Qed.

Lemma second_run_accumulates_witness :
  event_log (analyze_compromise scenario_analyzer (Str "U1"))
    `prefix_of` event_log (analyze_compromise
                             (analyze_compromise scenario_analyzer (Str "U1")) (Str "U2")) ∧
  event_log (analyze_compromise (analyze_compromise scenario_analyzer (Str "U1")) (Str "U2"))
    = event_log (analyze_compromise scenario_analyzer (Str "U1"))
      ++ [line_started (Str "U2"); line_processing (Str "U2")].
Proof.
  destruct (second_run_accumulates scenario_access scenario_activity scenario_analyzer
              (Str "U1") (Str "U2")) as (_ & _ & _ & _ & Hpre & _ & _ & Hsame).
  - vm_compute. reflexivity.
  - split; [exact Hpre|]. apply Hsame. vm_compute. reflexivity.
Defined.

(** C10. On a freshly built object, every activity line of the log when the
    run ends prints an activity recorded for an affected computer, and the
    user of every activity recorded for an affected computer has its line in
    the log, is listed for that computer in [computer_to_users] and is an
    affected user. *)
Theorem logged_activity_users_affected access activity a seed :
  init access activity = Ok a →
  (∀ line, line ∈ event_log (analyze_compromise a seed) → classify line = KActivity →
     ∃ c u t, c ∈ affected_computers (analyze_compromise a seed) ∧
       (u, t) ∈ dict_get (computer_activities a) c ∧
       line = line_activity t u ∧
       u ∈ affected_users (analyze_compromise a seed)) ∧
  (∀ c u t, c ∈ affected_computers (analyze_compromise a seed) →
     (u, t) ∈ dict_get (computer_activities a) c →
     line_activity t u ∈ event_log (analyze_compromise a seed) ∧
     u ∈ dict_get (computer_to_users a) c ∧
     u ∈ affected_users (analyze_compromise a seed)).
Proof.
  intros Hinit.
  destruct (init_ok _ _ _ Hinit) as (_ & _ & Hfresh & Hlog & _ & Hctu & Hca).
  destruct (bfs_inv_analyze_compromise a seed Hfresh)
    as [(_&_&_&Hca'&_) Hau Hac _ _ _ _ _ Hclosed].
  destruct (activity_lines_known_analyze_compromise a seed) as [Hlines Hacts].
  { destruct Hfresh as (_ & Hvc & _). split.
    - intros line Hin. rewrite Hlog in Hin. by apply elem_of_nil in Hin.
    - intros c u t Hc. rewrite Hvc in Hc. set_solver. }
  rewrite Hca' in Hlines, Hacts. rewrite Hau, Hac.
  assert (∀ c u t, c ∈ visited_computers (analyze_compromise a seed) →
            (u, t) ∈ dict_get (computer_activities a) c →
            u ∈ dict_get (computer_to_users a) c ∧
            u ∈ visited_users (analyze_compromise a seed)) as Huser.
  { intros c u t Hc Hut.
    assert (u ∈ dict_get (computer_to_users a) c) as Hu.
    { rewrite Hctu, users_of_activities_of, <-Hca.
      apply list_elem_of_fmap. by exists (u, t). }
    split; [done|]. apply (Hclosed c); [done | set_solver | done]. }
  split.
  - intros line Hin Hk. destruct (Hlines line Hin Hk) as (c & u & t & Hc & Hut & ->).
    exists c, u, t. repeat split; try done. by eapply Huser.
  - intros c u t Hc Hut. split; [by eapply Hacts|]. by eapply Huser.
Qed.

Lemma logged_activity_users_affected_witness :
  line_activity (Str "login") (Str "U2")
    ∈ event_log (analyze_compromise scenario_analyzer (Str "U1")) ∧
  Str "U2" ∈ dict_get (computer_to_users scenario_analyzer) (Str "C1") ∧
  Str "U2" ∈ affected_users (analyze_compromise scenario_analyzer (Str "U1")).
Proof.
  apply (proj2 (logged_activity_users_affected scenario_access scenario_activity
                  scenario_analyzer (Str "U1") init_scenario) (Str "C1")).
  - vm_compute. reflexivity.
  - vm_compute. left.
Defined.
